(** * DaneJoe::MTQueue<T> (include/mt_queue/mt_queue.hpp)

    A shallow embedding of the mutex-protected FIFO queue and the proofs of
    its specification.

    Every member function of the class takes [m_mutex] before it touches
    [m_queue] or [m_is_running], so each lock-held region is one atomic
    step on the pair of fields.  A member function is therefore a function
    on the fields.  The waiting members ([pop], [front] and the two timed
    pops) give the lock up inside [std::condition_variable::wait*];
    what the other threads do to the object in the meantime is an input of
    the model (a list of wake-ups), so that the loop [while (!pred()) wait]
    is a structural recursion on that list.  Wake-ups are not tied to
    [notify_one]/[notify_all]: a thread may be woken at any point, which
    covers notifications and spurious wake-ups alike.

    Objects live in a store indexed by address, because the move members
    touch two objects and [operator=] compares addresses. *)

From Stdlib Require Import ZArith List Bool Lia.
From stdpp Require Import gmap list.

Module DaneJoe.

Section mt_queue.

Context {T : Type}.

(** ** The data members

    [std::queue<T> m_queue] is a list whose head is the front of the queue;
    [bool m_is_running = true].  The mutex and the condition variable carry
    no data of their own. *)

Record MTQueue : Type := mkMTQueue {
  m_queue : list T;
  m_is_running : bool
}.

(** [std::queue] members used by the class. *)

Definition queue_empty (l : list T) : bool :=
  match l with
  | [] => true
  | _ :: _ => false
  end.

Definition queue_size (l : list T) : nat := length l.

Definition queue_push (item : T) (l : list T) : list T := l ++ [item].

(** [MTQueue() = default]: empty buffer, default member initialiser [true]. *)

Definition MTQueue_default : MTQueue :=
  {| m_queue := []; m_is_running := true |}.

(** The lambda handed to every wait:
    [return !m_queue.empty() || !m_is_running;] *)

Definition wait_pred (q : MTQueue) : bool :=
  negb (queue_empty (m_queue q)) || negb (m_is_running q).

(** ** Waiting on the condition variable

    A wake-up of a sleeping thread: the clock reading when the wait call
    returns, and what the other threads did to the object while this one
    was asleep. *)

Record wakeup : Type := mkWakeup {
  wk_time : Z;
  wk_env : MTQueue -> MTQueue
}.

(** The outcome of a member that may wait: the caller is still asleep after
    the last wake-up of the list, or the call returned [r] and left the
    fields as [q]. *)

Inductive outcome (A : Type) : Type :=
| Blocked
| Returned (r : A) (q : MTQueue).

#[global] Arguments Blocked {A}.
#[global] Arguments Returned {A} r q.

(** [cv.wait(lock, pred)] is [while (!pred()) wait(lock);]. *)

Fixpoint cv_wait (pred : MTQueue -> bool) (ws : list wakeup) (q : MTQueue)
  : option MTQueue :=
  if pred q then Some q
  else match ws with
       | [] => None
       | w :: ws' => cv_wait pred ws' (wk_env w q)
       end.

(** [cv.wait_until(lock, abs_time, pred)] is
    [while (!pred()) if (wait_until(lock, abs_time) == cv_status::timeout)
       return pred();
     return true;]
    and the inner [wait_until] reports a timeout when the clock has reached
    [abs_time] at the moment it returns. *)

Fixpoint cv_wait_until (abs_time : Z) (pred : MTQueue -> bool)
  (ws : list wakeup) (q : MTQueue) : option (bool * MTQueue) :=
  if pred q then Some (true, q)
  else match ws with
       | [] => None
       | w :: ws' =>
           let q' := wk_env w q in
           if (abs_time <=? wk_time w)%Z then Some (pred q', q')
           else cv_wait_until abs_time pred ws' q'
       end.

(** [cv.wait_for(lock, rel_time, pred)] is
    [wait_until(lock, steady_clock::now() + rel_time, pred)]. *)

Definition cv_wait_for (now rel_time : Z) (pred : MTQueue -> bool)
  (ws : list wakeup) (q : MTQueue) : option (bool * MTQueue) :=
  cv_wait_until (now + rel_time)%Z pred ws q.

(** ** The member functions *)

(** The tail shared by [pop], [try_pop], [pop_until] and [pop_for]:
    [if (m_queue.empty()) return std::nullopt;
     T item = std::move(m_queue.front()); m_queue.pop(); return item;] *)

Definition take_front (q : MTQueue) : option T * MTQueue :=
  match m_queue q with
  | [] => (None, q)
  | item :: rest =>
      (Some item, {| m_queue := rest; m_is_running := m_is_running q |})
  end.

Definition pop (ws : list wakeup) (q : MTQueue) : outcome (option T) :=
  match cv_wait wait_pred ws q with
  | None => Blocked
  | Some q1 => let '(r, q2) := take_front q1 in Returned r q2
  end.

Definition try_pop (q : MTQueue) : option T * MTQueue :=
  take_front q.

(** The value of [wait_until] is dropped by the caller. *)

Definition pop_until (timeout : Z) (ws : list wakeup) (q : MTQueue)
  : outcome (option T) :=
  match cv_wait_until timeout wait_pred ws q with
  | None => Blocked
  | Some (_, q1) => let '(r, q2) := take_front q1 in Returned r q2
  end.

Definition pop_for (now timeout : Z) (ws : list wakeup) (q : MTQueue)
  : outcome (option T) :=
  match cv_wait_for now timeout wait_pred ws q with
  | None => Blocked
  | Some (_, q1) => let '(r, q2) := take_front q1 in Returned r q2
  end.

Definition empty (q : MTQueue) : bool := queue_empty (m_queue q).

Definition size (q : MTQueue) : nat := queue_size (m_queue q).

Definition is_running (q : MTQueue) : bool := m_is_running q.

(** [if (!m_queue.empty()) { T item = m_queue.front(); return item; }
     return std::nullopt;] *)

Definition front (ws : list wakeup) (q : MTQueue) : outcome (option T) :=
  match cv_wait wait_pred ws q with
  | None => Blocked
  | Some q1 =>
      match m_queue q1 with
      | item :: _ => Returned (Some item) q1
      | [] => Returned None q1
      end
  end.

Definition push (item : T) (q : MTQueue) : bool * MTQueue :=
  if m_is_running q
  then (true, {| m_queue := queue_push item (m_queue q);
                 m_is_running := m_is_running q |})
  else (false, q).

Definition close (q : MTQueue) : MTQueue :=
  {| m_queue := m_queue q; m_is_running := false |}.

(** The wake condition in the words of the specification: the buffer is
    non-empty or the queue has been closed. *)

Definition wake_condition (q : MTQueue) : Prop :=
  m_queue q <> [] \/ m_is_running q = false.

(** ** What a waiting caller sees

    The fields as the other threads leave them after the wake-ups of [ws],
    and the fields at the [k]-th evaluation of the wait predicate (the
    evaluation on entry is number 0). *)

Definition env_run (ws : list wakeup) (q : MTQueue) : MTQueue :=
  foldl (fun q' w => wk_env w q') q ws.

Definition observed (ws : list wakeup) (q : MTQueue) (k : nat) : MTQueue :=
  env_run (take k ws) q.

(** A wake-up during which no other thread touched the object. *)

Definition quiet (t : Z) : wakeup :=
  {| wk_time := t; wk_env := fun q => q |}.

(** ** Calls on one object

    A call of a public member with its arguments.  The clock readings of a
    timed pop are those of its wake-ups; an untimed wait that finds its
    predicate false stays asleep.  In a sequence of calls the other
    threads' work is the other calls of the sequence, so the wake-ups of a
    call are quiet. *)

Inductive method : Type :=
| CallPush (item : T)
| CallPop
| CallTryPop
| CallPopUntil (timeout : Z) (clock : list Z)
| CallPopFor (now timeout : Z) (clock : list Z)
| CallEmpty
| CallSize
| CallIsRunning
| CallFront
| CallClose.

Inductive ret : Type :=
| RVoid
| RBool (b : bool)
| RSize (n : nat)
| ROpt (o : option T)
| RBlocked.

Definition of_outcome (o : outcome (option T)) (q : MTQueue)
  : ret * MTQueue :=
  match o with
  | Blocked => (RBlocked, q)
  | Returned r q' => (ROpt r, q')
  end.

Definition invoke (m : method) (q : MTQueue) : ret * MTQueue :=
  match m with
  | CallPush item => let '(b, q') := push item q in (RBool b, q')
  | CallPop => of_outcome (pop [] q) q
  | CallTryPop => let '(r, q') := try_pop q in (ROpt r, q')
  | CallPopUntil timeout clock =>
      of_outcome (pop_until timeout (map quiet clock) q) q
  | CallPopFor now timeout clock =>
      of_outcome (pop_for now timeout (map quiet clock) q) q
  | CallEmpty => (RBool (empty q), q)
  | CallSize => (RSize (size q), q)
  | CallIsRunning => (RBool (is_running q), q)
  | CallFront => of_outcome (front [] q) q
  | CallClose => (RVoid, close q)
  end.

Fixpoint invoke_all (ms : list method) (q : MTQueue)
  : list ret * MTQueue :=
  match ms with
  | [] => ([], q)
  | m :: ms' =>
      let '(r, q1) := invoke m q in
      let '(rs, q2) := invoke_all ms' q1 in
      (r :: rs, q2)
  end.

Definition is_pop_family (m : method) : bool :=
  match m with
  | CallPop | CallTryPop | CallPopUntil _ _ | CallPopFor _ _ _ => true
  | _ => false
  end.

(** ** Objects in memory

    The live [MTQueue] objects by address.  A member assigns to a field
    through [this] or through [other]; when both name one object the
    assignments hit the same fields. *)

Definition set_m_queue (a : nat) (l : list T)
  (s : gmap nat MTQueue) : gmap nat MTQueue :=
  alter (fun q => {| m_queue := l; m_is_running := m_is_running q |}) a s.

Definition set_m_is_running (a : nat) (b : bool)
  (s : gmap nat MTQueue) : gmap nat MTQueue :=
  alter (fun q => {| m_queue := m_queue q; m_is_running := b |}) a s.

(** The statements shared by the move constructor and move assignment:
    [m_queue = std::move(other.m_queue);
     m_is_running = other.m_is_running;
     other.m_is_running = false;]
    Move assignment of the underlying [std::deque] hands the elements over
    and leaves the source container empty. *)

Definition move_fields (this other : nat) (s : gmap nat MTQueue)
  : option (gmap nat MTQueue) :=
  match s !! other with
  | None => None
  | Some o =>
      let s1 := set_m_queue other [] (set_m_queue this (m_queue o) s) in
      match s1 !! other with
      | None => None
      | Some o1 =>
          let s2 := set_m_is_running this (m_is_running o1) s1 in
          Some (set_m_is_running other false s2)
      end
  end.

(** [MTQueue()] at a free address. *)

Definition construct (this : nat) (s : gmap nat MTQueue)
  : option (gmap nat MTQueue) :=
  match s !! this with
  | Some _ => None
  | None => Some (<[this := MTQueue_default]> s)
  end.

(** [MTQueue(MTQueue&& other)] at a free address, from a live object: the
    members are default-initialised, then the body runs. *)

Definition move_construct (this other : nat) (s : gmap nat MTQueue)
  : option (gmap nat MTQueue) :=
  match s !! this, s !! other with
  | None, Some _ => move_fields this other (<[this := MTQueue_default]> s)
  | _, _ => None
  end.

(** [operator=(MTQueue&& other)]:
    [if (this == &other) return *this;] and then the shared statements. *)

Definition move_assign (this other : nat) (s : gmap nat MTQueue)
  : option (gmap nat MTQueue) :=
  match s !! this with
  | None => None
  | Some _ =>
      if decide (this = other) then Some s
      else move_fields this other s
  end.

(** [~MTQueue()] calls [close()]; then the object is gone. *)

Definition destroy (this : nat) (s : gmap nat MTQueue)
  : option (gmap nat MTQueue) :=
  match s !! this with
  | None => None
  | Some _ => Some (delete this (alter close this s))
  end.

(** The public interface as calls on the store.  A call on an address that
    holds no object (or a construction over a live one) is not a run of the
    program: [None]. *)

Inductive call : Type :=
| Construct (this : nat)
| MoveConstruct (this other : nat)
| MoveAssign (this other : nat)
| Destroy (this : nat)
| Invoke (this : nat) (m : method).

Definition exec (c : call) (s : gmap nat MTQueue)
  : option (ret * gmap nat MTQueue) :=
  match c with
  | Construct this => s' ← construct this s; Some (RVoid, s')
  | MoveConstruct this other =>
      s' ← move_construct this other s; Some (RVoid, s')
  | MoveAssign this other => s' ← move_assign this other s; Some (RVoid, s')
  | Destroy this => s' ← destroy this s; Some (RVoid, s')
  | Invoke this m =>
      q ← s !! this;
      let '(r, q') := invoke m q in Some (r, <[this := q']> s)
  end.

Fixpoint run (cs : list call) (s : gmap nat MTQueue)
  : option (list ret * gmap nat MTQueue) :=
  match cs with
  | [] => Some ([], s)
  | c :: cs' =>
      match exec c s with
      | None => None
      | Some (r, s1) =>
          match run cs' s1 with
          | None => None
          | Some (rs, s2) => Some (r :: rs, s2)
          end
      end
  end.

(** The running flag of the object at [a], if there is one. *)

Definition running_at (a : nat) (s : gmap nat MTQueue) : option bool :=
  m_is_running <$> s !! a.

(** Calls that overwrite the object at [a] from another one, or end its
    lifetime. *)

Definition assigns_into (a : nat) (c : call) : bool :=
  match c with
  | MoveAssign this _ => bool_decide (this = a)
  | _ => false
  end.

Definition ends_lifetime (a : nat) (c : call) : bool :=
  match c with
  | Destroy this => bool_decide (this = a)
  | _ => false
  end.

(** ** Bookkeeping over calls

    The item a call put into the buffer and the item it took out, read off
    the call and what it returned: a [push] that returned true put its
    argument in; a pop that returned an item took that item out ([front]
    returns a copy and takes nothing). *)

Definition accepted (m : method) (r : ret) : list T :=
  match m, r with
  | CallPush item, RBool true => [item]
  | _, _ => []
  end.

Definition removed (m : method) (r : ret) : list T :=
  if is_pop_family m
  then match r with
       | ROpt (Some item) => [item]
       | _ => []
       end
  else [].

Fixpoint items_accepted (ms : list method) (rs : list ret) : list T :=
  match ms, rs with
  | m :: ms', r :: rs' => accepted m r ++ items_accepted ms' rs'
  | _, _ => []
  end.

Fixpoint items_removed (ms : list method) (rs : list ret) : list T :=
  match ms, rs with
  | m :: ms', r :: rs' => removed m r ++ items_removed ms' rs'
  | _, _ => []
  end.

(** The [const] members, which take the lock and only read. *)

Definition is_observer (m : method) : bool :=
  match m with
  | CallEmpty | CallSize | CallIsRunning | CallFront => true
  | _ => false
  end.

(** The calls of a sequence that are not observers, with their results. *)

Fixpoint drop_observers (ms : list method) : list method :=
  match ms with
  | [] => []
  | m :: ms' =>
      if is_observer m then drop_observers ms' else m :: drop_observers ms'
  end.

Fixpoint drop_observer_results (ms : list method) (rs : list ret)
  : list ret :=
  match ms, rs with
  | m :: ms', r :: rs' =>
      if is_observer m then drop_observer_results ms' rs'
      else r :: drop_observer_results ms' rs'
  | _, _ => []
  end.

(** The objects a call names. *)

Definition call_objects (c : call) : list nat :=
  match c with
  | Construct this => [this]
  | MoveConstruct this other => [this; other]
  | MoveAssign this other => [this; other]
  | Destroy this => [this]
  | Invoke this _ => [this]
  end.

End mt_queue.

#[global] Arguments MTQueue T : clear implicits.
#[global] Arguments wakeup T : clear implicits.
#[global] Arguments method T : clear implicits.
#[global] Arguments ret T : clear implicits.
#[global] Arguments call T : clear implicits.

(** * Proofs *)

Section object_level.

Context {T : Type}.

Implicit Types (q : MTQueue T) (ws : list (wakeup T)) (l : list T).

(** ** The wait predicate *)

Lemma wait_pred_true q : wait_pred q = true <-> wake_condition q.
Proof.
  unfold wait_pred, wake_condition.
  destruct q as [[|x l] [|]]; simpl; intuition congruence.
Qed.

Lemma wait_pred_false q : wait_pred q = false <-> ~ wake_condition q.
Proof.
  rewrite <- wait_pred_true. destruct (wait_pred q); split; congruence.
Qed.

Lemma wait_pred_false_default q : wait_pred q = false -> q = MTQueue_default.
Proof.
  unfold wait_pred.
  destruct q as [[|x l] [|]]; simpl; intros H; try discriminate H.
  reflexivity.
Qed.

Lemma asleep_default q : ~ wake_condition q -> q = MTQueue_default.
Proof. intros H. apply wait_pred_false_default, wait_pred_false, H. Qed.

(** ** Observations *)

Lemma observed_0 ws q : observed ws q 0 = q.
Proof. unfold observed. rewrite take_0. reflexivity. Qed.

Lemma observed_cons (w : wakeup T) ws q k :
  observed (w :: ws) q (S k) = observed ws (wk_env w q) k.
Proof. reflexivity. Qed.

Lemma observed_app_l ws ws' q k :
  k <= length ws -> observed (ws ++ ws') q k = observed ws q k.
Proof.
  intros Hk. unfold observed. rewrite take_app_le by lia. reflexivity.
Qed.

Lemma observed_quiet ws q k :
  Forall (fun w => forall q', wk_env w q' = q') ws -> observed ws q k = q.
Proof.
  intros Hq. revert q k.
  induction Hq as [|w ws Hw _ IH]; intros q k.
  - unfold observed. rewrite take_nil. reflexivity.
  - destruct k as [|k]; [apply observed_0|].
    rewrite observed_cons, Hw. apply IH.
Qed.

(** ** The untimed wait *)

Lemma cv_wait_None pred ws q :
  cv_wait pred ws q = None <->
  forall k, k <= length ws -> pred (observed ws q k) = false.
Proof.
  revert q. induction ws as [|w ws IH]; intros q; simpl.
  - destruct (pred q) eqn:Hp; split; try done.
    + intros H. specialize (H 0 (le_n _)). rewrite observed_0 in H. congruence.
    + intros _ k Hk. replace k with 0 by lia. by rewrite observed_0.
  - destruct (pred q) eqn:Hp.
    + split; [done|]. intros H. specialize (H 0 (Nat.le_0_l _)).
      rewrite observed_0 in H. congruence.
    + rewrite IH. split.
      * intros H [|k] Hk; [by rewrite observed_0|].
        rewrite observed_cons. apply H. lia.
      * intros H k Hk. rewrite <- observed_cons. apply H. lia.
Qed.

Lemma cv_wait_Some pred ws q q1 :
  cv_wait pred ws q = Some q1 ->
  exists k, k <= length ws
    /\ (forall j, j < k -> pred (observed ws q j) = false)
    /\ pred (observed ws q k) = true
    /\ q1 = observed ws q k.
Proof.
  revert q. induction ws as [|w ws IH]; intros q; simpl.
  - destruct (pred q) eqn:Hp; [|done]. intros [= <-].
    exists 0. rewrite observed_0. repeat split; auto; lia.
  - destruct (pred q) eqn:Hp.
    + intros [= <-]. exists 0. rewrite observed_0.
      repeat split; auto with lia.
    + intros H. destruct (IH _ H) as (k & Hk & Hlt & Hat & ->).
      exists (S k). rewrite observed_cons. repeat split; auto with lia.
      intros [|j] Hj; [by rewrite observed_0|].
      rewrite observed_cons. apply Hlt. lia.
Qed.

(** ** The shared tail of the pops *)

Lemma take_front_cons q x rest :
  m_queue q = x :: rest ->
  take_front q
  = (Some x, {| m_queue := rest; m_is_running := m_is_running q |}).
Proof. unfold take_front. by intros ->. Qed.

Lemma take_front_nil q : m_queue q = [] -> take_front q = (None, q).
Proof. unfold take_front. by intros ->. Qed.

(** ** The timed wait *)

Lemma cv_wait_until_timeout (deadline : Z) pred (pre post : list (wakeup T))
  (w : wakeup T) q :
  Forall (fun w' => (wk_time w' < deadline)%Z) pre ->
  (deadline <= wk_time w)%Z ->
  (forall k, k <= S (length pre) ->
     pred (observed (pre ++ [w]) q k) = false) ->
  cv_wait_until deadline pred (pre ++ w :: post) q
  = Some (false, observed (pre ++ [w]) q (S (length pre))).
Proof.
  intros Hpre Hw. revert q.
  induction Hpre as [|w0 pre Hw0 _ IH]; intros q Hobs; simpl.
  - pose proof (Hobs 0 (Nat.le_0_l _)) as H0. rewrite observed_0 in H0.
    pose proof (Hobs 1 (le_n _)) as H1. change (observed ([] ++ [w]) q 1)
      with (wk_env w q) in H1.
    rewrite H0. destruct (Z.leb_spec deadline (wk_time w)); [|lia].
    rewrite H1. reflexivity.
  - pose proof (Hobs 0 (Nat.le_0_l _)) as H0. rewrite observed_0 in H0.
    rewrite H0. destruct (Z.leb_spec deadline (wk_time w0)); [lia|].
    rewrite IH; [reflexivity|].
    intros k Hk. rewrite <- observed_cons. apply Hobs. simpl. lia.
Qed.

(** ** Sequences of calls on one object *)

Lemma invoke_all_app (ms1 ms2 : list (method T)) q :
  invoke_all (ms1 ++ ms2) q
  = (fst (invoke_all ms1 q) ++ fst (invoke_all ms2 (snd (invoke_all ms1 q))),
     snd (invoke_all ms2 (snd (invoke_all ms1 q)))).
Proof.
  revert q. induction ms1 as [|m ms1 IH]; intros q; simpl.
  - by destruct (invoke_all ms2 q).
  - destruct (invoke m q) as [r q1]. rewrite IH.
    destruct (invoke_all ms1 q1) as [rs1 q2]; simpl.
    by destruct (invoke_all ms2 q2).
Qed.

Lemma invoke_all_pushes (items : list T) l :
  invoke_all (map CallPush items) {| m_queue := l; m_is_running := true |}
  = (map (fun _ => RBool true) items,
     {| m_queue := l ++ items; m_is_running := true |}).
Proof.
  revert l. induction items as [|x items IH]; intros l; simpl.
  - by rewrite app_nil_r.
  - unfold queue_push. rewrite IH. by rewrite <- app_assoc.
Qed.

Lemma invoke_all_pops l (b : bool) :
  invoke_all (repeat CallPop (length l)) {| m_queue := l; m_is_running := b |}
  = (map (fun x => ROpt (Some x)) l, {| m_queue := []; m_is_running := b |}).
Proof.
  induction l as [|x l IH]; simpl; [done|]. by rewrite IH.
Qed.

(** On a closed queue the wait of every pop ends at once. *)

Lemma cv_wait_until_now (deadline : Z) ws q :
  wait_pred q = true ->
  cv_wait_until deadline wait_pred ws q = Some (true, q).
Proof. intros H. destruct ws; simpl; by rewrite H. Qed.

Lemma cv_wait_now ws q : wait_pred q = true -> cv_wait wait_pred ws q = Some q.
Proof. intros H. destruct ws; simpl; by rewrite H. Qed.

Lemma closed_wait_pred q : m_is_running q = false -> wait_pred q = true.
Proof. intros H. apply wait_pred_true. by right. Qed.

Lemma invoke_pop_family_closed (m : method T) q :
  m_is_running q = false -> is_pop_family m = true ->
  invoke m q = (ROpt (fst (take_front q)), snd (take_front q)).
Proof.
  intros Hcl Hm. apply closed_wait_pred in Hcl.
  destruct m; try discriminate Hm; simpl.
  - unfold pop. rewrite cv_wait_now by done. by destruct (take_front q).
  - unfold try_pop. by destruct (take_front q).
  - unfold pop_until. rewrite cv_wait_until_now by done.
    by destruct (take_front q).
  - unfold pop_for, cv_wait_for. rewrite cv_wait_until_now by done.
    by destruct (take_front q).
Qed.

Lemma invoke_all_drain (ms : list (method T)) l :
  Forall (fun m => is_pop_family m = true) ms ->
  invoke_all ms {| m_queue := l; m_is_running := false |}
  = (map ROpt (map Some (take (length ms) l)
               ++ repeat None (length ms - length l)),
     {| m_queue := drop (length ms) l; m_is_running := false |}).
Proof.
  intros Hms. revert l. induction Hms as [|m ms Hm _ IH]; intros l.
  - simpl. by rewrite drop_0.
  - cbn [invoke_all]. rewrite invoke_pop_family_closed by done.
    destruct l as [|x l]; cbn [take_front m_queue fst snd m_is_running].
    + rewrite IH. simpl. rewrite take_nil, drop_nil, Nat.sub_0_r. done.
    + rewrite IH. done.
Qed.

(** A closed queue stays closed under every member, its buffer can only
    lose items from the front, and whatever a member returns was in it. *)

Lemma invoke_closed (m : method T) q :
  m_is_running q = false ->
  m_is_running (snd (invoke m q)) = false
  /\ m_queue (snd (invoke m q)) `suffix_of` m_queue q
  /\ (forall y, fst (invoke m q) = ROpt (Some y) -> In y (m_queue q)).
Proof.
  intros Hcl.
  assert (Htf : m_is_running (snd (take_front q)) = false
    /\ m_queue (snd (take_front q)) `suffix_of` m_queue q
    /\ (forall y, ROpt (fst (take_front q)) = ROpt (Some y) ->
          In y (m_queue q))).
  { unfold take_front. destruct (m_queue q) as [|x l] eqn:Hq; simpl.
    - rewrite Hq. repeat split; [done..|discriminate].
    - repeat split; [done|by apply suffix_cons_r|].
      intros y [= ->]. by left. }
  destruct (is_pop_family m) eqn:Hm.
  { rewrite invoke_pop_family_closed by done. exact Htf. }
  destruct m; try discriminate Hm; simpl.
  - unfold push. rewrite Hcl. simpl. repeat split; [done..|discriminate].
  - repeat split; [done..|discriminate].
  - repeat split; [done..|discriminate].
  - repeat split; [done..|discriminate].
  - unfold front. rewrite cv_wait_now by (by apply closed_wait_pred).
    destruct (m_queue q) as [|x l] eqn:Hq; simpl; rewrite ?Hq.
    + repeat split; [done..|discriminate].
    + repeat split; [done..|]. intros y [= ->]. by left.
  - repeat split; [done..|discriminate].
Qed.

Lemma invoke_all_closed (ms : list (method T)) q :
  m_is_running q = false ->
  m_is_running (snd (invoke_all ms q)) = false
  /\ m_queue (snd (invoke_all ms q)) `suffix_of` m_queue q
  /\ (forall y, In (ROpt (Some y)) (fst (invoke_all ms q)) ->
        In y (m_queue q)).
Proof.
  revert q. induction ms as [|m ms IH]; intros q Hcl; simpl.
  - repeat split; [done..|]. intros y [].
  - destruct (invoke_closed m q Hcl) as (Hcl1 & Hsuf1 & Hin1).
    destruct (invoke m q) as [r q1]; simpl in *.
    destruct (IH q1 Hcl1) as (Hcl2 & Hsuf2 & Hin2).
    destruct (invoke_all ms q1) as [rs q2]; simpl in *.
    split; [done|]. split; [by etrans|].
    intros y [->|Hy]; [by apply Hin1|].
    apply Hin2 in Hy. apply list_elem_of_In in Hy. apply list_elem_of_In.
    destruct Hsuf1 as [pre ->]. apply elem_of_app. by right.
Qed.

(** ** Claims about one object *)

(** C2. [pop] stays asleep exactly as long as every evaluation of its wait
    predicate finds the buffer empty and the queue running.  When it
    returns, it does so at the first evaluation that finds the buffer
    non-empty or the queue closed: with a non-empty buffer it returns the
    head and removes it, and it returns absent exactly when the buffer is
    empty and the queue closed (leaving the fields as they are). *)
Theorem pop_waits_then_takes_head ws q :
  (pop ws q = Blocked <->
     forall k, k <= length ws -> ~ wake_condition (observed ws q k))
  /\ (forall r q', pop ws q = Returned r q' ->
       exists k, k <= length ws
         /\ (forall j, j < k -> ~ wake_condition (observed ws q j))
         /\ wake_condition (observed ws q k)
         /\ (forall x rest, m_queue (observed ws q k) = x :: rest ->
               r = Some x
               /\ q' = {| m_queue := rest;
                          m_is_running := m_is_running (observed ws q k) |})
         /\ (r = None <->
               m_queue (observed ws q k) = []
               /\ m_is_running (observed ws q k) = false)
         /\ (r = None -> q' = observed ws q k)).
Proof.
  unfold pop. split.
  - destruct (cv_wait wait_pred ws q) as [q1|] eqn:Hw.
    + split; [destruct (take_front q1); discriminate|].
      intros H. apply cv_wait_Some in Hw as (k & Hk & _ & Hat & _).
      apply wait_pred_true in Hat. destruct (H k Hk Hat).
    + split; [|done]. intros _ k Hk. apply wait_pred_false.
      revert k Hk. by apply cv_wait_None.
  - intros r q'. destruct (cv_wait wait_pred ws q) as [q1|] eqn:Hw; [|done].
    intros H. apply cv_wait_Some in Hw as (k & Hk & Hlt & Hat & ->).
    exists k. split; [done|]. split.
    { intros j Hj. apply wait_pred_false. auto. }
    apply wait_pred_true in Hat. split; [done|].
    set (q0 := observed ws q k) in *.
    destruct (m_queue q0) as [|x rest] eqn:Hq.
    + rewrite (take_front_nil _ Hq) in H. injection H as <- <-.
      destruct Hat as [Hne|Hcl]; [done|].
      split; [discriminate|]. split; [tauto|]. reflexivity.
    + rewrite (take_front_cons _ _ _ Hq) in H. injection H as <- <-.
      split; [|split].
      * intros x' rest' [= <- <-]. done.
      * split; [discriminate|]. intros [? _]. discriminate.
      * discriminate.
Qed.

(** C7. A [pop_until] (and a [pop_for] with the same deadline
    [now + timeout]) that finds the wake condition false at every
    evaluation of its predicate up to and including the one made when the
    bound has elapsed returns absent, and the buffer and the running flag
    at its return are those it was called with. *)
Theorem timed_pop_timeout_leaves_state (deadline : Z)
  (pre post : list (wakeup T)) (w : wakeup T) q :
  Forall (fun w' => (wk_time w' < deadline)%Z) pre ->
  (deadline <= wk_time w)%Z ->
  (forall k, k <= S (length pre) ->
     ~ wake_condition (observed (pre ++ [w]) q k)) ->
  pop_until deadline (pre ++ w :: post) q = Returned None q
  /\ (forall now timeout, (now + timeout)%Z = deadline ->
        pop_for now timeout (pre ++ w :: post) q = Returned None q)
  /\ observed (pre ++ [w]) q (S (length pre)) = q.
Proof.
  intros Hpre Hw Hobs.
  assert (Hwait : cv_wait_until deadline wait_pred (pre ++ w :: post) q
                  = Some (false, observed (pre ++ [w]) q (S (length pre)))).
  { apply cv_wait_until_timeout; auto.
    intros k Hk. apply wait_pred_false. auto. }
  assert (Hq : q = MTQueue_default).
  { apply asleep_default. rewrite <- (observed_0 (pre ++ [w]) q).
    apply Hobs. lia. }
  assert (Hend : observed (pre ++ [w]) q (S (length pre)) = q).
  { rewrite Hq at 2. apply asleep_default. auto. }
  rewrite Hend in Hwait.
  split; [|split; [|exact Hend]].
  - unfold pop_until. rewrite Hwait. rewrite Hq. reflexivity.
  - intros now timeout <-. unfold pop_for, cv_wait_for. rewrite Hwait.
    rewrite Hq. reflexivity.
Qed.

(** C8. [try_pop] has no wait in it: it always returns, even on an empty
    running queue.  With a non-empty buffer it removes and returns the
    head, with an empty buffer it returns absent and changes nothing, and
    neither the result nor the buffer it leaves depends on the running
    flag, which it does not touch. *)
Theorem try_pop_never_waits q :
  fst (invoke CallTryPop q) <> RBlocked
  /\ (forall x rest, m_queue q = x :: rest ->
        try_pop q
        = (Some x, {| m_queue := rest; m_is_running := m_is_running q |}))
  /\ (m_queue q = [] -> try_pop q = (None, q))
  /\ (forall b,
        let qb := {| m_queue := m_queue q; m_is_running := b |} in
        fst (try_pop qb) = fst (try_pop q)
        /\ m_queue (snd (try_pop qb)) = m_queue (snd (try_pop q))
        /\ m_is_running (snd (try_pop qb)) = b).
Proof.
  split; [|split; [|split]].
  - simpl. destruct (try_pop q). discriminate.
  - apply take_front_cons.
  - apply take_front_nil.
  - intros b. unfold try_pop, take_front. simpl.
    destruct (m_queue q) eqn:E; simpl; rewrite ?E; repeat split.
Qed.

(** C9. [front] waits on the same predicate as [pop], so it is asleep
    exactly when [pop] is, and it returns what [pop] returns: a copy of the
    head if the buffer is non-empty, absent if the queue is closed and
    empty.  It assigns to no field: the fields at its return are the ones
    its wait ended on, and the ones it was called with when no other
    thread touched the object meanwhile. *)
Theorem front_like_pop_without_removal ws q :
  (front ws q = Blocked <-> pop ws q = Blocked)
  /\ (forall r q', front ws q = Returned r q' ->
       (exists q'', pop ws q = Returned r q'')
       /\ r = head (m_queue q')
       /\ (r = None <-> m_queue q' = [] /\ m_is_running q' = false)
       /\ (exists k, k <= length ws
             /\ (forall j, j < k -> ~ wake_condition (observed ws q j))
             /\ wake_condition (observed ws q k)
             /\ q' = observed ws q k)
       /\ (Forall (fun w => forall q0, wk_env w q0 = q0) ws -> q' = q)).
Proof.
  unfold front, pop. destruct (cv_wait wait_pred ws q) as [q1|] eqn:Hw.
  - split.
    { destruct (m_queue q1), (take_front q1); split; discriminate. }
    intros r q' H.
    apply cv_wait_Some in Hw as (k & Hk & Hlt & Hat & ->).
    set (q0 := observed ws q k) in *.
    apply wait_pred_true in Hat.
    assert (Hfr : r = head (m_queue q0) /\ q' = q0).
    { destruct (m_queue q0); injection H as <- <-; done. }
    destruct Hfr as [-> ->].
    split; [|split; [done|split; [|split]]].
    + unfold take_front. destruct (m_queue q0); simpl; eauto.
    + destruct (m_queue q0) eqn:Hq; simpl.
      * destruct Hat as [Hne|Hcl]; [done|]. tauto.
      * split; [discriminate|]. intros [? _]. discriminate.
    + exists k. repeat split; auto.
      intros j Hj. apply wait_pred_false. auto.
    + intros Hquiet. apply observed_quiet, Hquiet.
  - split; [done|]. intros r q' H. discriminate.
Qed.

(** C3. At any point after [close()] (whatever members were called on the
    object in between), [push(x)] returns false and leaves the buffer and
    the flag as they were, so every later call behaves as if the push had
    not been made; and every item that a later [pop], [try_pop],
    [pop_for], [pop_until] or [front] returns was in the buffer before the
    push: if [x] was not in the buffer, no later call returns it. *)
Theorem push_after_close_rejected (q0 : MTQueue T) (ms1 : list (method T))
  (x : T) (ms2 : list (method T)) :
  let q := snd (invoke_all ms1 (close q0)) in
  push x q = (false, q)
  /\ invoke_all ms2 (snd (push x q)) = invoke_all ms2 q
  /\ (forall y, In (ROpt (Some y)) (fst (invoke_all ms2 (snd (push x q)))) ->
        In y (m_queue q))
  /\ (~ In x (m_queue q) ->
        ~ In (ROpt (Some x)) (fst (invoke_all ms2 (snd (push x q))))).
Proof.
  intros q.
  assert (Hcl : m_is_running q = false).
  { apply (invoke_all_closed ms1 (close q0)). reflexivity. }
  assert (Hpush : push x q = (false, q)).
  { unfold push. by rewrite Hcl. }
  rewrite Hpush. simpl.
  split; [done|]. split; [done|].
  pose proof (invoke_all_closed ms2 q Hcl) as (_ & _ & Hin).
  split; [exact Hin|]. intros Hx Hret. apply Hx, Hin, Hret.
Qed.

(** C4. On a fresh queue used by one thread, the pushes of [items] all
    succeed and the same number of pops then return exactly [items], in
    the order they were pushed, none of them waiting; the queue is empty
    again afterwards. *)
Theorem fifo_order (items : list T) :
  invoke_all (map CallPush items ++ repeat CallPop (length items))
    MTQueue_default
  = (map (fun _ => RBool true) items ++ map (fun x => ROpt (Some x)) items,
     MTQueue_default).
Proof.
  rewrite invoke_all_app. unfold MTQueue_default.
  rewrite invoke_all_pushes. simpl. by rewrite invoke_all_pops.
Qed.

(** C5. A second [close()] changes nothing.  After [close()], calls of the
    pop family return the buffered items in order, one each, without
    waiting, and return absent only once the buffer is exhausted: of [n]
    such calls the first [min n (size)] return the items and the rest
    return absent. *)
Theorem close_idempotent_and_drains (q : MTQueue T) :
  close (close q) = close q
  /\ (forall ms : list (method T),
        Forall (fun m => is_pop_family m = true) ms ->
        invoke_all ms (close q)
        = (map ROpt (map Some (take (length ms) (m_queue q))
                     ++ repeat None (length ms - length (m_queue q))),
           {| m_queue := drop (length ms) (m_queue q);
              m_is_running := false |})).
Proof.
  split; [reflexivity|]. intros ms Hms.
  unfold close. by apply invoke_all_drain.
Qed.

End object_level.

Section store_level.

Context {T : Type}.

Implicit Types (s : gmap nat (MTQueue T)) (q : MTQueue T).

(** ** The shared statements of the two move members *)

Lemma move_fields_Some (this other : nat) s q :
  this <> other -> s !! other = Some q ->
  exists s', move_fields this other s = Some s'
    /\ s' !! other = Some {| m_queue := []; m_is_running := false |}
    /\ s' !! this = (fun _ => q) <$> s !! this
    /\ (forall c, c <> this -> c <> other -> s' !! c = s !! c).
Proof.
  intros Hne Ho. unfold move_fields, set_m_queue, set_m_is_running.
  rewrite Ho. rewrite lookup_alter_eq, lookup_alter_ne, Ho by done. simpl.
  eexists. split; [reflexivity|]. split; [|split].
  - rewrite lookup_alter_eq, lookup_alter_ne, lookup_alter_eq by done.
    rewrite lookup_alter_ne, Ho by done. reflexivity.
  - rewrite lookup_alter_ne, lookup_alter_eq, lookup_alter_ne by done.
    rewrite lookup_alter_eq. destruct (s !! this); [|done].
    simpl. by destruct q.
  - intros c Hc1 Hc2. by rewrite !lookup_alter_ne.
Qed.

Lemma move_fields_None (this other : nat) s :
  s !! other = None -> move_fields this other s = None.
Proof. intros Ho. unfold move_fields. by rewrite Ho. Qed.

(** Without the address test, the same statements run on one object
    empty it and close it. *)

Lemma move_fields_self (a : nat) s q :
  s !! a = Some q ->
  exists s', move_fields a a s = Some s'
    /\ s' !! a = Some {| m_queue := []; m_is_running := false |}.
Proof.
  intros Ha. unfold move_fields, set_m_queue, set_m_is_running.
  rewrite Ha. rewrite !lookup_alter_eq, Ha. simpl.
  eexists. split; [reflexivity|].
  rewrite !lookup_alter_eq, Ha. reflexivity.
Qed.

(** ** The running flag under the members of one object *)

Lemma take_front_flag q : m_is_running (snd (take_front q)) = m_is_running q.
Proof. unfold take_front. by destruct (m_queue q). Qed.

Lemma cv_wait_until_quiet (deadline : Z) pred (clock : list Z) q b q1 :
  cv_wait_until deadline pred (map quiet clock) q = Some (b, q1) -> q1 = q.
Proof.
  induction clock as [|t clock IH]; simpl.
  - destruct (pred q); congruence.
  - destruct (pred q); [congruence|].
    destruct (deadline <=? t)%Z; [congruence|exact IH].
Qed.

Lemma invoke_flag (m : method T) q :
  m_is_running (snd (invoke m q))
  = match m with CallClose => false | _ => m_is_running q end.
Proof.
  destruct m; cbn [invoke]; try reflexivity.
  - unfold push. by destruct (m_is_running q) eqn:E.
  - unfold pop. simpl. destruct (wait_pred q); [|done].
    pose proof (take_front_flag q). by destruct (take_front q).
  - pose proof (take_front_flag q). unfold try_pop. by destruct (take_front q).
  - unfold pop_until.
    destruct (cv_wait_until _ _ _ q) as [[b q1]|] eqn:Hw; [|done].
    apply cv_wait_until_quiet in Hw as ->.
    pose proof (take_front_flag q). by destruct (take_front q).
  - unfold pop_for, cv_wait_for.
    destruct (cv_wait_until _ _ _ q) as [[b q1]|] eqn:Hw; [|done].
    apply cv_wait_until_quiet in Hw as ->.
    pose proof (take_front_flag q). by destruct (take_front q).
  - unfold front. simpl. destruct (wait_pred q); [|done].
    by destruct (m_queue q).
Qed.

(** ** The running flag under the calls on the store

    What every call does to the flag of the object at [a]. *)

Lemma exec_running_at (a : nat) (c : call T) s r s' :
  exec c s = Some (r, s') ->
  running_at a s'
  = match c with
    | Construct this =>
        if decide (a = this) then Some true else running_at a s
    | MoveConstruct this other =>
        if decide (a = other) then Some false
        else if decide (a = this) then running_at other s
        else running_at a s
    | MoveAssign this other =>
        if decide (this = other) then running_at a s
        else if decide (a = other) then Some false
        else if decide (a = this) then running_at other s
        else running_at a s
    | Destroy this => if decide (a = this) then None else running_at a s
    | Invoke this m =>
        if decide (a = this)
        then match m with CallClose => Some false | _ => running_at a s end
        else running_at a s
    end.
Proof.
  unfold running_at. destruct c as [this|this other|this other|this|this m];
    simpl; intros Hex.
  - unfold construct in Hex. destruct (s !! this) eqn:Hthis; [done|].
    injection Hex as <- <-. case_decide as Ha.
    + subst a. by rewrite lookup_insert_eq.
    + by rewrite lookup_insert_ne.
  - unfold move_construct in Hex.
    destruct (s !! this) eqn:Hthis; [done|].
    destruct (s !! other) as [o|] eqn:Hother; [|done].
    assert (Hne : this <> other) by congruence.
    destruct (move_fields_Some this other (<[this:=MTQueue_default]> s) o Hne)
      as (s1 & Hmv & Hso & Hst & Hsc); [by rewrite lookup_insert_ne|].
    rewrite Hmv in Hex. injection Hex as <- <-.
    repeat case_decide; subst.
    + by rewrite Hso.
    + by rewrite Hst, lookup_insert_eq.
    + by rewrite Hsc, lookup_insert_ne.
  - unfold move_assign in Hex. destruct (s !! this) as [t|] eqn:Hthis; [|done].
    case_decide as Hne; [by injection Hex as <- <-|].
    destruct (s !! other) as [o|] eqn:Hother;
      [|by rewrite move_fields_None in Hex].
    destruct (move_fields_Some this other s o Hne Hother)
      as (s1 & Hmv & Hso & Hst & Hsc).
    rewrite Hmv in Hex. injection Hex as <- <-.
    repeat case_decide; subst.
    + by rewrite Hso.
    + by rewrite Hst, Hthis.
    + by rewrite Hsc.
  - unfold destroy in Hex. destruct (s !! this) eqn:Hthis; [|done].
    injection Hex as <- <-. case_decide as Ha.
    + subst a. by rewrite lookup_delete_eq.
    + by rewrite lookup_delete_ne, lookup_alter_ne.
  - destruct (s !! this) as [q|] eqn:Hthis; [|done]. simpl in Hex.
    pose proof (invoke_flag m q) as Hfl.
    destruct (invoke m q) as [r1 q1]. injection Hex as <- <-.
    case_decide as Ha.
    + subst a. rewrite lookup_insert_eq, Hthis. simpl in *.
      rewrite Hfl. by destruct m.
    + by rewrite lookup_insert_ne.
Qed.

Lemma run_keeps_closed (a : nat) (cs : list (call T)) s rs s' :
  run cs s = Some (rs, s') ->
  Forall (fun c => assigns_into a c = false /\ ends_lifetime a c = false) cs ->
  running_at a s = Some false -> running_at a s' = Some false.
Proof.
  intros Hrun Hcs. revert s rs Hrun.
  induction Hcs as [|c cs [Hc1 Hc2] _ IH]; intros s rs Hrun Hfl; simpl in Hrun.
  - by injection Hrun as <- <-.
  - destruct (exec c s) as [[r s1]|] eqn:Hex; [|done].
    destruct (run cs s1) as [[rs1 s2]|] eqn:Hrun1; [|done].
    injection Hrun as <- <-. apply (IH s1 rs1 Hrun1).
    rewrite (exec_running_at a c s r s1 Hex).
    destruct c as [this|this other|this other|this|this m]; simpl in *;
      repeat case_decide; subst; try done.
    + apply fmap_Some in Hfl as (q & Hq & _).
      unfold construct in Hex. by rewrite Hq in Hex.
    + apply fmap_Some in Hfl as (q & Hq & _).
      unfold move_construct in Hex. by rewrite Hq in Hex.
    + by destruct m.
Qed.

(** ** Claims about objects in the store *)

(** C1 (amended). A default-constructed queue is running, and a queue made
    or overwritten by a move takes the flag its source had.  Every call of
    the public interface other than a move assignment into the object
    keeps a false flag false, over any run for as long as the object
    lives.  The flag of a running object becomes false only by [close()]
    on it, by its being the source of a move, or by a move assignment into
    it from a queue that is not running. *)
Theorem running_flag_stays_false_except_move_assign (a : nat) :
  (forall s r s',
     exec (T:=T) (Construct a) s = Some (r, s') ->
     running_at a s' = Some true)
  /\ (forall other s r s', other <> a ->
       exec (T:=T) (MoveConstruct a other) s = Some (r, s')
       \/ exec (T:=T) (MoveAssign a other) s = Some (r, s') ->
       running_at a s' = running_at other s)
  /\ (forall (c : call T) s r s',
       exec c s = Some (r, s') -> assigns_into a c = false ->
       running_at a s = Some false -> running_at a s' <> Some true)
  /\ (forall (cs : list (call T)) s rs s',
       run cs s = Some (rs, s') ->
       Forall (fun c => assigns_into a c = false
                        /\ ends_lifetime a c = false) cs ->
       running_at a s = Some false -> running_at a s' = Some false)
  /\ (forall (c : call T) s r s',
       exec c s = Some (r, s') ->
       running_at a s = Some true -> running_at a s' = Some false ->
       c = Invoke a CallClose
       \/ (exists this, this <> a
             /\ (c = MoveConstruct this a \/ c = MoveAssign this a))
       \/ (exists other, other <> a /\ c = MoveAssign a other
             /\ running_at other s = Some false)).
Proof.
  split; [|split; [|split; [|split]]].
  - intros s r s' Hex. rewrite (exec_running_at a _ s r s' Hex).
    by rewrite decide_True.
  - intros other s r s' Hne [Hex|Hex];
      rewrite (exec_running_at a _ s r s' Hex);
      repeat case_decide; subst; done.
  - intros c s r s' Hex Hc Hfl.
    rewrite (exec_running_at a c s r s' Hex).
    destruct c as [this|this other|this other|this|this m]; simpl in *;
      repeat case_decide; subst; try congruence.
    + apply fmap_Some in Hfl as (q & Hq & _).
      unfold construct in Hex. by rewrite Hq in Hex.
    + apply fmap_Some in Hfl as (q & Hq & _).
      unfold move_construct in Hex. by rewrite Hq in Hex.
    + by apply bool_decide_eq_false in Hc.
    + destruct m; congruence.
  - intros cs s rs s'. apply run_keeps_closed.
  - intros c s r s' Hex Htrue Hfalse.
    rewrite (exec_running_at a c s r s' Hex) in Hfalse.
    destruct c as [this|this other|this other|this|this m];
      repeat case_decide; subst; try congruence.
    + right; left. exists this. split; [|by left].
      intros ->. apply fmap_Some in Htrue as (q & Hq & _).
      simpl in Hex. unfold move_construct in Hex. by rewrite Hq in Hex.
    + apply fmap_Some in Htrue as (q & Hq & _).
      simpl in Hex. unfold move_construct in Hex. by rewrite Hq in Hex.
    + right; left. exists this. split; [congruence|by right].
    + right; right. exists other. split; [congruence|done].
    + destruct m; try congruence. by left.
Qed.

(** C6. Moving the queue at [A] into [B], by move construction at a free
    address [B] or by move assignment to a live [B] distinct from [A],
    leaves at [A] an empty queue that is not running and at [B] exactly
    the items, in order, and the running flag that [A] had; no other
    object changes. *)
Theorem move_transfers_and_invalidates (A B : nat) s q :
  s !! A = Some q -> A <> B ->
  (s !! B = None ->
     exists s', exec (MoveConstruct B A) s = Some (RVoid, s')
       /\ s' !! A = Some {| m_queue := []; m_is_running := false |}
       /\ s' !! B = Some q
       /\ (forall c, c <> A -> c <> B -> s' !! c = s !! c))
  /\ (is_Some (s !! B) ->
       exists s', exec (MoveAssign B A) s = Some (RVoid, s')
         /\ s' !! A = Some {| m_queue := []; m_is_running := false |}
         /\ s' !! B = Some q
         /\ (forall c, c <> A -> c <> B -> s' !! c = s !! c)).
Proof.
  intros HA Hne. split.
  - intros HB. simpl. unfold move_construct. rewrite HB, HA.
    destruct (move_fields_Some B A (<[B:=MTQueue_default]> s) q)
      as (s1 & Hmv & Hso & Hst & Hsc); [done|by rewrite lookup_insert_ne|].
    rewrite Hmv. simpl. exists s1. split; [done|]. split; [done|].
    split; [by rewrite Hst, lookup_insert_eq|].
    intros c HcA HcB. by rewrite Hsc, lookup_insert_ne.
  - intros [qB HB]. simpl. unfold move_assign. rewrite HB.
    rewrite decide_False by done.
    destruct (move_fields_Some B A s q) as (s1 & Hmv & Hso & Hst & Hsc);
      [done..|].
    rewrite Hmv. simpl. exists s1. split; [done|]. split; [done|].
    split; [by rewrite Hst, HB|]. intros c HcA HcB. by apply Hsc.
Qed.

(** C10. Move-assigning a live queue to itself returns at the address test
    and changes nothing: the store, and so the items and the running flag
    of the queue, are the same after the call. *)
Theorem self_move_assign_identity (a : nat) s :
  is_Some (s !! a) -> exec (MoveAssign a a) s = Some (RVoid, s).
Proof.
  intros [q Ha]. simpl. unfold move_assign. rewrite Ha.
  by rewrite decide_True.
Qed.

End store_level.

(** * Further properties of the members *)

Section sequences.

Context {T : Type}.

Implicit Types (q : MTQueue T) (ms : list (method T)) (l : list T).

(** A pop of a call sequence either finds its wait predicate false and
    stays asleep, or runs the shared tail on the fields it was called
    with. *)

Lemma invoke_pop_family (m : method T) q :
  is_pop_family m = true ->
  invoke m q = (RBlocked, q)
  \/ invoke m q = (ROpt (fst (take_front q)), snd (take_front q)).
Proof.
  intros Hm. destruct m; try discriminate Hm; cbn [invoke].
  - unfold pop. simpl. destruct (wait_pred q); [right|by left].
    by destruct (take_front q).
  - right. unfold try_pop. by destruct (take_front q).
  - unfold pop_until.
    destruct (cv_wait_until _ _ _ q) as [[b q1]|] eqn:Hw; [right|by left].
    apply cv_wait_until_quiet in Hw as ->. by destruct (take_front q).
  - unfold pop_for, cv_wait_for.
    destruct (cv_wait_until _ _ _ q) as [[b q1]|] eqn:Hw; [right|by left].
    apply cv_wait_until_quiet in Hw as ->. by destruct (take_front q).
Qed.

Lemma invoke_observer (m : method T) q :
  is_observer m = true -> snd (invoke m q) = q.
Proof.
  intros Hm. destruct m; try discriminate Hm; cbn [invoke]; try reflexivity.
  unfold front. simpl. destruct (wait_pred q); [|done].
  by destruct (m_queue q).
Qed.

Lemma invoke_conserves (m : method T) q :
  m_queue q ++ accepted m (fst (invoke m q))
  = removed m (fst (invoke m q)) ++ m_queue (snd (invoke m q)).
Proof.
  destruct (is_pop_family m) eqn:Hpop.
  - assert (Hacc : forall r, accepted m r = []) by (by destruct m).
    rewrite Hacc, app_nil_r. unfold removed. rewrite Hpop.
    destruct (invoke_pop_family m q Hpop) as [-> | ->]; [done|].
    unfold take_front. destruct (m_queue q) eqn:Hq; simpl; by rewrite ?Hq.
  - assert (Hrem : forall r, removed m r = [])
      by (intros r; unfold removed; by rewrite Hpop).
    rewrite Hrem. simpl.
    destruct (is_observer m) eqn:Hobs.
    + rewrite invoke_observer by done.
      assert (Hacc : forall r, accepted m r = []) by (by destruct m).
      by rewrite Hacc, app_nil_r.
    + destruct m; try discriminate Hpop; try discriminate Hobs; cbn [invoke].
      * unfold push. by destruct (m_is_running q); simpl; rewrite ?app_nil_r.
      * simpl. by rewrite app_nil_r.
Qed.

(** X1. Nothing is lost, duplicated or reordered.  Over any sequence of
    member calls on one queue, the buffer at the start followed by the
    items of the pushes that returned true, in call order, is the items the
    pops returned, in call order, followed by the buffer at the end.  So
    the sizes add up as well. *)
Theorem items_conserved_in_order ms q :
  let rs := fst (invoke_all ms q) in
  let q' := snd (invoke_all ms q) in
  m_queue q ++ items_accepted ms rs = items_removed ms rs ++ m_queue q'
  /\ size q + length (items_accepted ms rs)
     = length (items_removed ms rs) + size q'.
Proof.
  cbn zeta.
  assert (H : m_queue q ++ items_accepted ms (fst (invoke_all ms q))
              = items_removed ms (fst (invoke_all ms q))
                ++ m_queue (snd (invoke_all ms q))).
  { revert q. induction ms as [|m ms IH]; intros q; simpl.
    - by rewrite app_nil_r.
    - pose proof (invoke_conserves m q) as Hm.
      destruct (invoke m q) as [r q1]. simpl in Hm.
      specialize (IH q1). destruct (invoke_all ms q1) as [rs q2].
      simpl in *. rewrite app_assoc, Hm, <- !app_assoc. by rewrite IH. }
  split; [exact H|].
  unfold size, queue_size. rewrite <- !length_app. by rewrite H.
Qed.

(** X2. [front], [empty], [size] and [is_running] only read: taking these
    calls out of a sequence changes neither the fields the sequence ends
    with nor what any of the other calls returns. *)
Theorem observers_change_nothing ms q :
  snd (invoke_all (drop_observers ms) q) = snd (invoke_all ms q)
  /\ fst (invoke_all (drop_observers ms) q)
     = drop_observer_results ms (fst (invoke_all ms q)).
Proof.
  revert q. induction ms as [|m ms IH]; intros q; simpl; [done|].
  destruct (is_observer m) eqn:Hobs.
  - pose proof (invoke_observer m q Hobs) as Hq.
    destruct (invoke m q) as [r q1]. simpl in Hq. subst q1.
    destruct (IH q) as [IH1 IH2].
    destruct (invoke_all ms q) as [rs q2]. simpl. by split.
  - simpl. destruct (invoke m q) as [r q1].
    destruct (IH q1) as [IH1 IH2].
    destruct (invoke_all ms q1) as [rs q2].
    destruct (invoke_all (drop_observers ms) q1) as [rs' q2'].
    simpl in *. by subst.
Qed.

Lemma invoke_all_try_pops l (b : bool) :
  invoke_all (repeat CallTryPop (length l))
    {| m_queue := l; m_is_running := b |}
  = (map (fun x => ROpt (Some x)) l, {| m_queue := []; m_is_running := b |}).
Proof. induction l as [|x l IH]; simpl; [done|]. by rewrite IH. Qed.

(** X3. [size()] is the number of items [try_pop] can deliver, whatever the
    running flag: that many calls of [try_pop] return the buffered items in
    order, none waiting, and leave a queue for which [empty()] is true and
    on which the next [try_pop] returns absent.  [empty()] is true exactly
    when [size()] is 0, exactly when [try_pop] returns absent. *)
Theorem try_pop_drains_size q :
  invoke_all (repeat CallTryPop (size q)) q
  = (map (fun x => ROpt (Some x)) (m_queue q),
     {| m_queue := []; m_is_running := m_is_running q |})
  /\ (let q' := snd (invoke_all (repeat CallTryPop (size q)) q) in
      empty q' = true /\ try_pop q' = (None, q'))
  /\ (empty q = true <-> size q = 0)
  /\ (empty q = true <-> fst (try_pop q) = None).
Proof.
  destruct q as [l b]. unfold size, queue_size, empty. simpl.
  split; [apply invoke_all_try_pops|]. split.
  - by rewrite invoke_all_try_pops.
  - unfold try_pop, take_front. simpl. by destruct l.
Qed.

End sequences.

Section waiting.

Context {T : Type}.

Implicit Types (q : MTQueue T) (ws pre post : list (wakeup T)) (w : wakeup T).

(** ** The waits over a stretch of sleep *)

Lemma cv_wait_app pred pre ws q :
  (forall k, k <= length pre -> pred (observed pre q k) = false) ->
  cv_wait pred (pre ++ ws) q = cv_wait pred ws (env_run pre q).
Proof.
  revert q. induction pre as [|w0 pre IH]; intros q Hobs; [done|].
  pose proof (Hobs 0 (Nat.le_0_l _)) as H0. rewrite observed_0 in H0.
  simpl. rewrite H0. apply IH.
  intros k Hk. rewrite <- observed_cons. apply Hobs. simpl. lia.
Qed.

Lemma cv_wait_until_app (deadline : Z) pred pre ws q :
  Forall (fun w' => (wk_time w' < deadline)%Z) pre ->
  (forall k, k <= length pre -> pred (observed pre q k) = false) ->
  cv_wait_until deadline pred (pre ++ ws) q
  = cv_wait_until deadline pred ws (env_run pre q).
Proof.
  intros Hpre. revert q.
  induction Hpre as [|w0 pre Hw0 _ IH]; intros q Hobs; [done|].
  pose proof (Hobs 0 (Nat.le_0_l _)) as H0. rewrite observed_0 in H0.
  simpl. rewrite H0. destruct (Z.leb_spec deadline (wk_time w0)); [lia|].
  apply IH. intros k Hk. rewrite <- observed_cons. apply Hobs. simpl. lia.
Qed.


Lemma asleep_env_run pre q :
  (forall k, k <= length pre -> ~ wake_condition (observed pre q k)) ->
  q = MTQueue_default /\ env_run pre q = MTQueue_default.
Proof.
  intros Hobs. split.
  - apply asleep_default. rewrite <- (observed_0 pre q). apply Hobs. lia.
  - apply asleep_default.
    replace (env_run pre q) with (observed pre q (length pre)).
    + by apply Hobs.
    + unfold observed. by rewrite firstn_all.
Qed.



(** X6. The timed pops do not consult the value of the wait.  When the
    deadline is found elapsed at a wake-up but another thread has put an
    item in meanwhile, the call returns the head of the buffer and removes
    it, not absent. *)
Theorem timed_pop_takes_late_item (deadline : Z) pre w post q
  (x : T) (rest : list T) :
  Forall (fun w' => (wk_time w' < deadline)%Z) pre ->
  (deadline <= wk_time w)%Z ->
  (forall k, k <= length pre -> ~ wake_condition (observed pre q k)) ->
  m_queue (wk_env w (env_run pre q)) = x :: rest ->
  let q' := {| m_queue := rest;
               m_is_running := m_is_running (wk_env w (env_run pre q)) |} in
  pop_until deadline (pre ++ w :: post) q = Returned (Some x) q'
  /\ (forall now timeout : Z, (now + timeout)%Z = deadline ->
        pop_for now timeout (pre ++ w :: post) q = Returned (Some x) q').
Proof.
  intros Hpre Hw Hobs Hitem q'.
  assert (Hwait : exists b,
    cv_wait_until deadline wait_pred (pre ++ w :: post) q
    = Some (b, wk_env w (env_run pre q))).
  { rewrite cv_wait_until_app; [|done|].
    - destruct (asleep_env_run pre q Hobs) as [_ ->]. simpl.
      destruct (Z.leb_spec deadline (wk_time w)); [|lia]. eauto.
    - intros k Hk. apply wait_pred_false. auto. }
  destruct Hwait as [b Hwait].
  split.
  - unfold pop_until. rewrite Hwait.
    by rewrite (take_front_cons _ _ _ Hitem).
  - intros now timeout <-. unfold pop_for, cv_wait_for. rewrite Hwait.
    by rewrite (take_front_cons _ _ _ Hitem).
Qed.

(** X7. [close()] by another thread releases a sleeping consumer.  A
    caller asleep on an empty queue that wakes after the other thread's
    [close()] returns absent from [pop] and from [front], with the queue
    closed and still empty; a timed pop in the same situation returns
    absent as well, whether or not its deadline has passed. *)
Theorem close_releases_waiters pre w post q :
  (forall k, k <= length pre -> ~ wake_condition (observed pre q k)) ->
  (forall q0, wk_env w q0 = close q0) ->
  pop (pre ++ w :: post) q = Returned None (close q)
  /\ front (pre ++ w :: post) q = Returned None (close q)
  /\ (forall deadline : Z,
        Forall (fun w' => (wk_time w' < deadline)%Z) pre ->
        pop_until deadline (pre ++ w :: post) q = Returned None (close q)).
Proof.
  intros Hobs Hw.
  destruct (asleep_env_run pre q Hobs) as [Hq Hend].
  assert (Hpred : forall k, k <= length pre ->
            wait_pred (observed pre q k) = false).
  { intros k Hk. apply wait_pred_false. auto. }
  subst q.
  assert (Hwait : cv_wait wait_pred (pre ++ w :: post) MTQueue_default
                  = Some (close MTQueue_default)).
  { rewrite cv_wait_app by done. rewrite Hend. simpl. rewrite Hw.
    by apply cv_wait_now. }
  unfold pop, front. rewrite Hwait. simpl.
  split; [done|]. split; [done|].
  intros deadline Hpre. unfold pop_until.
  rewrite cv_wait_until_app by done. rewrite Hend. simpl. rewrite Hw.
  destruct (deadline <=? wk_time w)%Z; [done|].
  by rewrite cv_wait_until_now.
Qed.

(** X8. A producer's [push] hands its item to a sleeping consumer.  A
    caller asleep in [pop] on an empty running queue that wakes after
    another thread pushed [x] returns [x] and leaves the queue empty and
    running; [front] returns a copy of [x] and leaves it in the buffer. *)
Theorem push_hands_item_to_waiter pre w post q (x : T) :
  (forall k, k <= length pre -> ~ wake_condition (observed pre q k)) ->
  (forall q0, wk_env w q0 = snd (push x q0)) ->
  pop (pre ++ w :: post) q = Returned (Some x) q
  /\ front (pre ++ w :: post) q
     = Returned (Some x) {| m_queue := [x]; m_is_running := true |}.
Proof.
  intros Hobs Hw.
  destruct (asleep_env_run pre q Hobs) as [Hq Hend].
  assert (Hpred : forall k, k <= length pre ->
            wait_pred (observed pre q k) = false).
  { intros k Hk. apply wait_pred_false. auto. }
  subst q. unfold pop, front. rewrite cv_wait_app by done.
  rewrite Hend. simpl. rewrite Hw. by rewrite cv_wait_now.
Qed.

(** X9. A timed pop whose timeout is zero or negative does not wait for an
    item: at its first wake-up the deadline has passed (the clock does not
    run backwards), so it returns, and when no other thread touched the
    queue in between it returns what [try_pop] returns. *)
Theorem pop_for_nonpositive_timeout (now timeout : Z) w ws q :
  (timeout <= 0)%Z -> (now <= wk_time w)%Z ->
  pop_for now timeout (w :: ws) q <> Blocked
  /\ (wk_env w q = q ->
        pop_for now timeout (w :: ws) q
        = Returned (fst (try_pop q)) (snd (try_pop q))).
Proof.
  intros Ht Hnow. unfold pop_for, cv_wait_for, try_pop. simpl.
  destruct (Z.leb_spec (now + timeout) (wk_time w)); [|lia].
  destruct (wait_pred q); split.
  - destruct (take_front q). discriminate.
  - intros _. by destruct (take_front q).
  - destruct (take_front (wk_env w q)). discriminate.
  - intros ->. by destruct (take_front q).
Qed.

Lemma cv_wait_until_Some (deadline : Z) pred ws q (b : bool) q1 :
  cv_wait_until deadline pred ws q = Some (b, q1) ->
  exists k, k <= length ws /\ q1 = observed ws q k.
Proof.
  revert q. induction ws as [|w ws IH]; intros q; simpl.
  - destruct (pred q); [|done]. intros [= <- <-].
    exists 0. by rewrite observed_0.
  - destruct (pred q).
    + intros [= <- <-]. exists 0. rewrite observed_0. split; [lia|done].
    + destruct (deadline <=? wk_time w)%Z.
      * intros [= <- <-]. exists 1. split; [lia|done].
      * intros H. destruct (IH _ H) as (k & Hk & ->).
        exists (S k). rewrite observed_cons. split; [lia|done].
Qed.

(** X15. Whatever a timed pop returns comes from the buffer as it stood at
    one of the call's evaluations of the predicate: an item it returns was
    the head there and is removed, and it returns absent only if the buffer
    was empty there, in which case it changes nothing. *)
Theorem timed_pop_result_from_buffer (deadline : Z) ws q
  (r : option T) q' :
  pop_until deadline ws q = Returned r q'
  \/ (exists now timeout : Z,
        (now + timeout)%Z = deadline
        /\ pop_for now timeout ws q = Returned r q') ->
  exists k, k <= length ws
    /\ r = head (m_queue (observed ws q k))
    /\ q' = {| m_queue := tail (m_queue (observed ws q k));
               m_is_running := m_is_running (observed ws q k) |}.
Proof.
  intros H.
  assert (Hu : match cv_wait_until deadline wait_pred ws q with
               | None => False
               | Some (_, q1) => take_front q1 = (r, q')
               end).
  { destruct H as [H|(now & timeout & <- & H)];
      [unfold pop_until in H|unfold pop_for, cv_wait_for in H];
      destruct (cv_wait_until _ wait_pred ws q) as [[b q1]|]; try done;
      destruct (take_front q1); by injection H as <- <-. }
  destruct (cv_wait_until deadline wait_pred ws q) as [[b q1]|] eqn:Hw;
    [|done].
  apply cv_wait_until_Some in Hw as (k & Hk & ->).
  exists k. split; [done|].
  unfold take_front in Hu.
  destruct (observed ws q k) as [l f]; simpl in *.
  destruct l; by injection Hu as <- <-.
Qed.

End waiting.

Section objects.

Context {T : Type}.

Implicit Types (s : gmap nat (MTQueue T)) (q : MTQueue T).

(** ** Runs *)

Lemma run_app (cs1 cs2 : list (call T)) s :
  run (cs1 ++ cs2) s
  = match run cs1 s with
    | None => None
    | Some (rs1, s1) =>
        match run cs2 s1 with
        | None => None
        | Some (rs2, s2) => Some (rs1 ++ rs2, s2)
        end
    end.
Proof.
  revert s. induction cs1 as [|c cs1 IH]; intros s; simpl.
  - by destruct (run cs2 s) as [[rs2 s2]|].
  - destruct (exec c s) as [[r s1]|]; [|done]. rewrite IH.
    destruct (run cs1 s1) as [[rs1 s2]|]; [|done].
    by destruct (run cs2 s2) as [[rs2 s3]|].
Qed.

(** Member calls on one object act on that object as they do on its
    fields. *)

Lemma run_invokes (a : nat) (ms : list (method T)) s q :
  s !! a = Some q ->
  run (map (Invoke a) ms) s
  = Some (fst (invoke_all ms q), <[a := snd (invoke_all ms q)]> s).
Proof.
  revert s q. induction ms as [|m ms IH]; intros s q Ha; simpl.
  - by rewrite insert_id.
  - rewrite Ha. simpl. destruct (invoke m q) as [r q1].
    rewrite (IH _ q1) by apply lookup_insert_eq.
    destruct (invoke_all ms q1) as [rs q2]. simpl.
    by rewrite insert_insert_eq.
Qed.

Lemma exec_move_assign (A B : nat) s q :
  s !! A = Some q -> A <> B -> is_Some (s !! B) ->
  exists s', exec (MoveAssign B A) s = Some (RVoid, s')
    /\ s' !! A = Some {| m_queue := []; m_is_running := false |}
    /\ s' !! B = Some q
    /\ (forall c, c <> A -> c <> B -> s' !! c = s !! c).
Proof.
  intros HA Hne [qB HB]. simpl. unfold move_assign. rewrite HB.
  rewrite decide_False by done.
  destruct (move_fields_Some B A s q) as (s1 & Hmv & Hso & Hst & Hsc);
    [done..|].
  rewrite Hmv. simpl. exists s1. split; [done|]. split; [done|].
  split; [by rewrite Hst, HB|]. intros c HcA HcB. by apply Hsc.
Qed.

(** What the members do to a queue that has been moved from. *)

Lemma invoke_moved_from (m : method T) :
  let q0 := {| m_queue := []; m_is_running := false |} in
  snd (invoke m q0) = q0
  /\ fst (invoke m q0) <> RBlocked
  /\ (forall y, fst (invoke m q0) <> ROpt (Some y))
  /\ (forall x, m = CallPush x -> fst (invoke m q0) = RBool false).
Proof.
  intros q0.
  destruct (is_pop_family m) eqn:Hpop.
  - rewrite invoke_pop_family_closed by done. simpl.
    repeat split; try discriminate. intros x ->. discriminate Hpop.
  - destruct m; try discriminate Hpop; simpl;
      repeat split; try discriminate; try done.
Qed.

(** X10. A call changes only the objects it names: the object a member is
    called on, the two objects of a move, the object constructed or
    destroyed.  Every other queue keeps its items and its flag, over any
    run. *)
Theorem calls_touch_named_objects_only (a : nat) :
  (forall (c : call T) s r s',
     exec c s = Some (r, s') -> ~ In a (call_objects c) ->
     s' !! a = s !! a)
  /\ (forall (cs : list (call T)) s rs s',
       run cs s = Some (rs, s') ->
       Forall (fun c => ~ In a (call_objects c)) cs ->
       s' !! a = s !! a).
Proof.
  assert (Hstep : forall (c : call T) s r s',
     exec c s = Some (r, s') -> ~ In a (call_objects c) ->
     s' !! a = s !! a).
  { intros c s r s' Hex Ha.
    destruct c as [this|this other|this other|this|this m]; simpl in *.
    - unfold construct in Hex. destruct (s !! this); [done|].
      injection Hex as <- <-. apply lookup_insert_ne. naive_solver.
    - unfold move_construct in Hex.
      destruct (s !! this) eqn:Hthis; [done|].
      destruct (s !! other) as [o|] eqn:Hother; [|done].
      assert (Hne : this <> other) by congruence.
      destruct (move_fields_Some this other (<[this:=MTQueue_default]> s)
                  o Hne) as (s1 & Hmv & _ & _ & Hsc);
        [by rewrite lookup_insert_ne|].
      rewrite Hmv in Hex. injection Hex as <- <-.
      rewrite Hsc by naive_solver. apply lookup_insert_ne. naive_solver.
    - unfold move_assign in Hex. destruct (s !! this) eqn:Hthis; [|done].
      case_decide as Hne; [by injection Hex as <- <-|].
      destruct (s !! other) as [o|] eqn:Hother;
        [|by rewrite move_fields_None in Hex].
      destruct (move_fields_Some this other s o Hne Hother)
        as (s1 & Hmv & _ & _ & Hsc).
      rewrite Hmv in Hex. injection Hex as <- <-. apply Hsc; naive_solver.
    - unfold destroy in Hex. destruct (s !! this); [|done].
      injection Hex as <- <-.
      rewrite lookup_delete_ne, lookup_alter_ne by naive_solver. done.
    - destruct (s !! this) as [q|]; [|done]. simpl in Hex.
      destruct (invoke m q) as [r1 q1]. injection Hex as <- <-.
      apply lookup_insert_ne. naive_solver. }
  split; [exact Hstep|].
  intros cs s rs s' Hrun Hcs. revert s rs Hrun.
  induction Hcs as [|c cs Hc _ IH]; intros s rs Hrun; simpl in Hrun.
  - by injection Hrun as <- <-.
  - destruct (exec c s) as [[r s1]|] eqn:Hex; [|done].
    destruct (run cs s1) as [[rs1 s2]|] eqn:Hrun1; [|done].
    injection Hrun as <- <-. rewrite (IH s1 rs1 Hrun1).
    by apply (Hstep c s r).
Qed.

(** X11. A queue that is constructed, used and destroyed leaves no trace:
    at a free address, the default constructor, any member calls on the new
    queue and the destructor give back the store as it was, whatever was
    still buffered; the calls return what they return on a fresh queue. *)
Theorem scoped_queue_leaves_no_trace (a : nat) (ms : list (method T)) s :
  s !! a = None ->
  run (Construct a :: map (Invoke a) ms ++ [Destroy a]) s
  = Some (RVoid :: fst (invoke_all ms MTQueue_default) ++ [RVoid], s).
Proof.
  intros Ha. cbn [run exec]. unfold construct. rewrite Ha. simpl.
  rewrite run_app.
  rewrite (run_invokes a ms _ MTQueue_default) by apply lookup_insert_eq.
  simpl. unfold destroy. rewrite lookup_insert_eq. simpl.
  rewrite delete_alter_eq, delete_insert_eq, delete_insert_eq.
  by rewrite delete_id.
Qed.

(** X12. Moving a queue away and back restores it: for two live queues,
    [B = std::move(A)] followed by [A = std::move(B)] leaves [A] with the
    items and the flag it started with and [B] empty and not running
    (what [B] held before is gone); no other object changes. *)
Theorem move_there_and_back (A B : nat) s q :
  s !! A = Some q -> A <> B -> is_Some (s !! B) ->
  exists s', run [MoveAssign B A; MoveAssign A B] s
             = Some ([RVoid; RVoid], s')
    /\ s' !! A = Some q
    /\ s' !! B = Some {| m_queue := []; m_is_running := false |}
    /\ (forall c, c <> A -> c <> B -> s' !! c = s !! c).
Proof.
  intros HA Hne HB.
  destruct (exec_move_assign A B s q HA Hne HB)
    as (s1 & Hex1 & HA1 & HB1 & Hfr1).
  destruct (exec_move_assign B A s1 q HB1 (not_eq_sym Hne))
    as (s2 & Hex2 & HB2 & HA2 & Hfr2); [by rewrite HA1|].
  exists s2. cbn [run]. rewrite Hex1, Hex2.
  split; [done|]. split; [done|]. split; [done|].
  intros c HcA HcB. rewrite Hfr2 by done. by apply Hfr1.
Qed.

(** X13. A queue that has been moved from is inert.  After
    [B = std::move(A)], every member called on [A] returns at once: no
    call waits, every [push] returns false, no pop and no [front] returns
    an item, and [A] stays empty and not running while [B] keeps what it
    received. *)
Theorem moved_from_queue_is_inert (A B : nat) (ms : list (method T)) s q :
  s !! A = Some q -> A <> B -> is_Some (s !! B) ->
  exists rs s',
    run (MoveAssign B A :: map (Invoke A) ms) s = Some (RVoid :: rs, s')
    /\ s' !! A = Some {| m_queue := []; m_is_running := false |}
    /\ s' !! B = Some q
    /\ Forall2 (fun m r =>
                  r <> RBlocked
                  /\ (forall y, r <> ROpt (Some y))
                  /\ (forall x, m = CallPush x -> r = RBool false)) ms rs.
Proof.
  intros HA Hne HB.
  destruct (exec_move_assign A B s q HA Hne HB)
    as (s1 & Hex1 & HA1 & HB1 & _).
  set (q0 := {| m_queue := []; m_is_running := false |}) in *.
  assert (Hall : snd (invoke_all ms q0) = q0
    /\ Forall2 (fun m r =>
                  r <> RBlocked
                  /\ (forall y, r <> ROpt (Some y))
                  /\ (forall x, m = CallPush x -> r = RBool false))
         ms (fst (invoke_all ms q0))).
  { induction ms as [|m ms [IH1 IH2]]; simpl; [by split|].
    destruct (invoke_moved_from m) as (Hq & Hr).
    fold q0 in Hq, Hr. destruct (invoke m q0) as [r q1].
    simpl in Hq. subst q1.
    destruct (invoke_all ms q0) as [rs q2]. simpl in *.
    split; [done|]. by constructor. }
  destruct Hall as [Hq Hrs].
  exists (fst (invoke_all ms q0)), (<[A := q0]> s1).
  cbn [run]. rewrite Hex1. rewrite (run_invokes A ms s1 q0 HA1). rewrite Hq.
  split; [done|]. split; [apply lookup_insert_eq|].
  split; [by rewrite lookup_insert_ne|done].
Qed.

(** X14. The items follow the move.  After [B = std::move(A)], as many
    [try_pop] calls on [B] as [A] had items return exactly the items of
    [A], in the order they were pushed, and leave [B] empty with the flag
    [A] had. *)
Theorem items_follow_the_move (A B : nat) s q :
  s !! A = Some q -> A <> B -> is_Some (s !! B) ->
  exists s',
    run (MoveAssign B A :: map (Invoke B) (repeat CallTryPop (size q))) s
    = Some (RVoid :: map (fun x => ROpt (Some x)) (m_queue q), s')
    /\ s' !! B = Some {| m_queue := []; m_is_running := m_is_running q |}
    /\ s' !! A = Some {| m_queue := []; m_is_running := false |}.
Proof.
  intros HA Hne HB.
  destruct (exec_move_assign A B s q HA Hne HB)
    as (s1 & Hex1 & HA1 & HB1 & _).
  exists (<[B := {| m_queue := []; m_is_running := m_is_running q |}]> s1).
  cbn [run]. rewrite Hex1.
  rewrite (run_invokes B _ s1 q HB1).
  destruct q as [l b]. unfold size, queue_size. simpl.
  rewrite invoke_all_try_pops. simpl.
  split; [reflexivity|]. split; [apply lookup_insert_eq|].
  by rewrite lookup_insert_ne.
Qed.

End objects.

(** * Concrete runs

    The members evaluated on queues of numbers. *)

(** C1, as first stated, fails.  Queue 0 is closed, so its flag is false;
    move-assigning the running queue 1 into it makes the flag true again,
    and a second [close()] makes it false a second time.  A queue
    move-constructed from the closed queue 0 starts out not running. *)
Lemma closed_queue_revived_by_move_assign :
  exists (s3 s4 s5 s6 : gmap nat (MTQueue nat)) (rs : list (ret nat)),
    run [Construct 0; Construct 1; Invoke 0 CallClose] ∅ = Some (rs, s3)
    /\ running_at 0 s3 = Some false
    /\ exec (MoveAssign 0 1) s3 = Some (RVoid, s4)
    /\ running_at 0 s4 = Some true
    /\ exec (Invoke 0 CallClose) s4 = Some (RVoid, s5)
    /\ running_at 0 s5 = Some false
    /\ exec (MoveConstruct 2 0) s3 = Some (RVoid, s6)
    /\ running_at 2 s6 = Some false.
Proof.
  eexists _, _, _, _, _.
  split; [vm_compute; reflexivity|].
  split; [vm_compute; reflexivity|].
  split; [vm_compute; reflexivity|].
  split; [vm_compute; reflexivity|].
  split; [vm_compute; reflexivity|].
  split; [vm_compute; reflexivity|].
  split; vm_compute; reflexivity.
Qed.

(** A closed queue stays closed through pushes, pops and being moved from,
    over a run that never assigns into it. *)
Lemma running_flag_witness :
  let s : gmap nat (MTQueue nat) :=
    <[0 := {| m_queue := [4]; m_is_running := false |}]> ∅ in
  let cs := [Invoke 0 (CallPush 5); Invoke 0 CallPop;
             MoveConstruct 1 0; Invoke 0 CallFront; Construct 2;
             MoveAssign 1 2] in
  running_at 0 s = Some false
  /\ Forall (fun c => assigns_into 0 c = false
                      /\ ends_lifetime 0 c = false) cs
  /\ (exists rs s', run cs s = Some (rs, s')
        /\ running_at 0 s' = Some false).
Proof.
  intros s cs.
  assert (Hfl : running_at 0 s = Some false) by (vm_compute; reflexivity).
  assert (Hcs : Forall (fun c => assigns_into 0 c = false
                                 /\ ends_lifetime 0 c = false) cs)
    by (repeat constructor).
  split; [exact Hfl|]. split; [exact Hcs|].
  eexists _, _. split; [vm_compute; reflexivity|].
  eapply (proj1 (proj2 (proj2 (proj2
            (running_flag_stays_false_except_move_assign (T:=nat) 0)))) cs s);
    [vm_compute; reflexivity|exact Hcs|exact Hfl].
Defined.

(** A consumer asleep on a fresh queue is woken once for nothing and once
    after a producer pushed 7. *)
Lemma pop_witness :
  let ws := [quiet 1;
             {| wk_time := 2; wk_env := fun q => snd (push 7 q) |}] in
  let q := MTQueue_default (T:=nat) in
  pop ws q = Returned (Some 7) q
  /\ (exists k, k <= length ws /\ wake_condition (observed ws q k)).
Proof.
  intros ws q. split; [reflexivity|].
  destruct (proj2 (pop_waits_then_takes_head ws q) (Some 7) q eq_refl)
    as (k & Hk & _ & Hw & _).
  exists k. split; assumption.
Defined.

Lemma push_after_close_witness :
  let q0 := {| m_queue := [1; 2]; m_is_running := true |} in
  let q := snd (invoke_all [CallPop] (close q0)) in
  let ms2 := [CallPop; CallFront; CallTryPop] in
  ~ In 9 (m_queue q)
  /\ push 9 q = (false, q)
  /\ ~ In (ROpt (Some 9)) (fst (invoke_all ms2 (snd (push 9 q)))).
Proof.
  intros q0 q ms2.
  assert (Hx : ~ In 9 (m_queue q)).
  { simpl. intros [H|[]]. discriminate H. }
  destruct (push_after_close_rejected q0 [CallPop] 9 ms2)
    as (Hpush & _ & _ & Hnever).
  split; [exact Hx|]. split; [exact Hpush|]. exact (Hnever Hx).
Defined.

Lemma drain_witness :
  let q := {| m_queue := [1; 2]; m_is_running := true |} in
  let ms : list (method nat) :=
    [CallPop; CallTryPop; CallPopFor 0 5 []; CallPopUntil 3 [1%Z]; CallPop] in
  Forall (fun m => is_pop_family m = true) ms
  /\ fst (invoke_all ms (close q))
     = [ROpt (Some 1); ROpt (Some 2); ROpt None; ROpt None; ROpt None].
Proof.
  intros q ms.
  assert (Hms : Forall (fun m => is_pop_family m = true) ms)
    by (repeat constructor).
  split; [exact Hms|].
  rewrite (proj2 (close_idempotent_and_drains q) ms Hms). reflexivity.
Defined.

Lemma move_witness :
  let q := {| m_queue := [3; 4]; m_is_running := true |} in
  let s : gmap nat (MTQueue nat) := <[0 := q]> ∅ in
  let s1 := <[1 := {| m_queue := [9]; m_is_running := false |}]> s in
  s !! 0 = Some q /\ 0 <> 1 /\ s !! 1 = None
  /\ (exists s', exec (MoveConstruct 1 0) s = Some (RVoid, s')
        /\ s' !! 0 = Some {| m_queue := []; m_is_running := false |}
        /\ s' !! 1 = Some q)
  /\ s1 !! 0 = Some q /\ is_Some (s1 !! 1)
  /\ (exists s', exec (MoveAssign 1 0) s1 = Some (RVoid, s')
        /\ s' !! 0 = Some {| m_queue := []; m_is_running := false |}
        /\ s' !! 1 = Some q).
Proof.
  intros q s s1.
  assert (H0 : s !! 0 = Some q) by (vm_compute; reflexivity).
  assert (Hne : 0 <> 1) by lia.
  assert (H1 : s !! 1 = None) by (vm_compute; reflexivity).
  assert (H0' : s1 !! 0 = Some q) by (vm_compute; reflexivity).
  assert (H1' : is_Some (s1 !! 1)) by (eexists; vm_compute; reflexivity).
  destruct (proj1 (move_transfers_and_invalidates 0 1 s q H0 Hne) H1)
    as (s' & Hex & HA & HB & _).
  destruct (proj2 (move_transfers_and_invalidates 0 1 s1 q H0' Hne) H1')
    as (s'' & Hex' & HA' & HB' & _).
  repeat (split; [assumption|]).
  split; [exists s'; auto|].
  repeat (split; [assumption|]).
  exists s''; auto.
Defined.

(** A consumer with deadline 10 on a fresh queue, woken at 3 and at 12 with
    nothing pushed. *)
Lemma timed_pop_witness :
  let q := MTQueue_default (T:=nat) in
  Forall (fun w' : wakeup nat => (wk_time w' < 10)%Z) [quiet 3]
  /\ (10 <= wk_time (quiet (T:=nat) 12))%Z
  /\ (forall k, k <= 2 ->
        ~ wake_condition (observed ([quiet 3] ++ [quiet 12]) q k))
  /\ pop_until 10 ([quiet 3] ++ quiet 12 :: []) q = Returned None q
  /\ pop_for 4 6 ([quiet 3] ++ quiet 12 :: []) q = Returned None q.
Proof.
  intros q.
  assert (Hpre : Forall (fun w' : wakeup nat => (wk_time w' < 10)%Z)
                   [quiet 3]) by (repeat constructor).
  assert (Hw : (10 <= wk_time (quiet (T:=nat) 12))%Z) by (simpl; lia).
  assert (Hobs : forall k, k <= 2 ->
            ~ wake_condition (observed ([quiet 3] ++ [quiet 12]) q k)).
  { intros [|[|[|k]]] Hk; [| | |lia];
      (intros [H|H]; [by apply H|discriminate H]). }
  destruct (timed_pop_timeout_leaves_state 10 [quiet 3] [] (quiet 12) q
              Hpre Hw Hobs) as (Huntil & Hfor & _).
  repeat (split; [assumption|]).
  apply Hfor. reflexivity.
Defined.

Lemma try_pop_witness :
  let q := MTQueue_default (T:=nat) in
  let q' := {| m_queue := [5; 6]; m_is_running := false |} in
  m_queue q = [] /\ try_pop q = (None, q)
  /\ m_queue q' = 5 :: [6]
  /\ try_pop q' = (Some 5, {| m_queue := [6]; m_is_running := false |}).
Proof.
  intros q q'.
  destruct (try_pop_never_waits q) as (_ & _ & Hnil & _).
  destruct (try_pop_never_waits q') as (_ & Hcons & _ & _).
  split; [reflexivity|]. split; [exact (Hnil eq_refl)|].
  split; [reflexivity|]. exact (Hcons 5 [6] eq_refl).
Defined.

Lemma front_witness :
  let q := {| m_queue := [5; 6]; m_is_running := false |} in
  front [] q = Returned (Some 5) q
  /\ (exists q'', pop [] q = Returned (Some 5) q'').
Proof.
  intros q. split; [reflexivity|].
  destruct (proj2 (front_like_pop_without_removal [] q) (Some 5) q eq_refl)
    as (Hpop & _).
  exact Hpop.
Defined.

Lemma self_move_witness :
  let s : gmap nat (MTQueue nat) :=
    <[0 := {| m_queue := [3]; m_is_running := true |}]> ∅ in
  is_Some (s !! 0) /\ exec (MoveAssign 0 0) s = Some (RVoid, s).
Proof.
  intros s.
  assert (H0 : is_Some (s !! 0)) by (eexists; vm_compute; reflexivity).
  split; [exact H0|]. exact (self_move_assign_identity 0 s H0).
Defined.

(** Runs for the further properties. *)



Lemma timed_pop_result_witness :
  let q := {| m_queue := [4; 5]; m_is_running := true |} in
  pop_until 10 [quiet 3] q
  = Returned (Some 4) {| m_queue := [5]; m_is_running := true |}
  /\ (exists k, k <= 1
        /\ Some 4 = head (m_queue (observed [quiet 3] q k))).
Proof.
  intros q.
  assert (H : pop_until 10 [quiet 3] q
    = Returned (Some 4) {| m_queue := [5]; m_is_running := true |})
    by reflexivity.
  split; [exact H|].
  destruct (timed_pop_result_from_buffer 10 [quiet 3] q (Some 4) _
              (or_introl H)) as (k & Hk & Hr & _).
  exists k. by split.
Defined.

Lemma late_item_witness :
  let q := MTQueue_default (T:=nat) in
  let w := {| wk_time := 12; wk_env := fun q0 => snd (push 7 q0) |} in
  Forall (fun w' : wakeup nat => (wk_time w' < 10)%Z) [quiet 3]
  /\ (10 <= wk_time w)%Z
  /\ (forall k, k <= 1 -> ~ wake_condition (observed [quiet 3] q k))
  /\ m_queue (wk_env w (env_run [quiet 3] q)) = 7 :: []
  /\ pop_until 10 ([quiet 3] ++ w :: []) q = Returned (Some 7) q.
Proof.
  intros q w.
  assert (Hpre : Forall (fun w' : wakeup nat => (wk_time w' < 10)%Z)
                   [quiet 3]) by (repeat constructor).
  assert (Hw : (10 <= wk_time w)%Z) by (simpl; lia).
  assert (Hobs : forall k, k <= 1 ->
            ~ wake_condition (observed [quiet 3] q k)).
  { intros [|[|k]] Hk; [| |lia];
      (intros [H|H]; [by apply H|discriminate H]). }
  assert (Hitem : m_queue (wk_env w (env_run [quiet 3] q)) = 7 :: [])
    by reflexivity.
  destruct (timed_pop_takes_late_item 10 [quiet 3] w [] q 7 [] Hpre Hw Hobs
              Hitem) as (Huntil & _).
  repeat (split; [assumption|]). exact Huntil.
Defined.

Lemma close_releases_witness :
  let q := MTQueue_default (T:=nat) in
  let w := {| wk_time := 5; wk_env := close (T:=nat) |} in
  (forall k, k <= 1 -> ~ wake_condition (observed [quiet 1] q k))
  /\ (forall q0, wk_env w q0 = close q0)
  /\ pop ([quiet 1] ++ w :: []) q = Returned None (close q)
  /\ front ([quiet 1] ++ w :: []) q = Returned None (close q).
Proof.
  intros q w.
  assert (Hobs : forall k, k <= 1 ->
            ~ wake_condition (observed [quiet 1] q k)).
  { intros [|[|k]] Hk; [| |lia];
      (intros [H|H]; [by apply H|discriminate H]). }
  assert (Hw : forall q0, wk_env w q0 = close q0) by reflexivity.
  destruct (close_releases_waiters [quiet 1] w [] q Hobs Hw)
    as (Hpop & Hfront & _).
  repeat (split; [assumption|]). assumption.
Defined.

Lemma push_hands_item_witness :
  let q := MTQueue_default (T:=nat) in
  let w := {| wk_time := 1; wk_env := fun q0 => snd (push 7 q0) |} in
  (forall k, k <= 0 -> ~ wake_condition (observed [] q k))
  /\ (forall q0, wk_env w q0 = snd (push 7 q0))
  /\ pop ([] ++ w :: []) q = Returned (Some 7) q.
Proof.
  intros q w.
  assert (Hobs : forall k, k <= 0 -> ~ wake_condition (observed [] q k)).
  { intros [|k] Hk; [|lia]. intros [H|H]; [by apply H|discriminate H]. }
  assert (Hw : forall q0, wk_env w q0 = snd (push 7 q0)) by reflexivity.
  destruct (push_hands_item_to_waiter [] w [] q 7 Hobs Hw) as (Hpop & _).
  repeat (split; [assumption|]). exact Hpop.
Defined.

Lemma nonpositive_timeout_witness :
  let q := MTQueue_default (T:=nat) in
  (0 <= 0)%Z /\ (5 <= wk_time (quiet (T:=nat) 5))%Z
  /\ wk_env (quiet 5) q = q
  /\ pop_for 5 0 [quiet 5] q = Returned None q.
Proof.
  intros q.
  assert (Ht : (0 <= 0)%Z) by lia.
  assert (Hnow : (5 <= wk_time (quiet (T:=nat) 5))%Z) by (simpl; lia).
  assert (Henv : wk_env (quiet 5) q = q) by reflexivity.
  destruct (pop_for_nonpositive_timeout 5 0 (quiet 5) [] q Ht Hnow)
    as (_ & Htry).
  repeat (split; [assumption|]). exact (Htry Henv).
Defined.

Lemma named_objects_witness :
  let s : gmap nat (MTQueue nat) :=
    <[0 := MTQueue_default]>
      (<[1 := MTQueue_default]>
         (<[2 := {| m_queue := [9]; m_is_running := true |}]> ∅)) in
  let cs := [Invoke 0 (CallPush 1); MoveAssign 1 0; Destroy 0; Construct 3] in
  Forall (fun c => ~ In 2 (call_objects c)) cs
  /\ (exists rs s', run cs s = Some (rs, s') /\ s' !! 2 = s !! 2).
Proof.
  intros s cs.
  assert (Hcs : Forall (fun c => ~ In 2 (call_objects c)) cs).
  { repeat (constructor; [simpl; lia|]). constructor. }
  split; [exact Hcs|]. eexists _, _. split; [vm_compute; reflexivity|].
  eapply (proj2 (calls_touch_named_objects_only (T:=nat) 2) cs s);
    [vm_compute; reflexivity|exact Hcs].
Defined.

Lemma scoped_queue_witness :
  let s : gmap nat (MTQueue nat) :=
    <[1 := {| m_queue := [9]; m_is_running := true |}]> ∅ in
  let ms := [CallPush 1; CallPush 2; CallPop] in
  s !! 0 = None
  /\ run (Construct 0 :: map (Invoke 0) ms ++ [Destroy 0]) s
     = Some (RVoid :: fst (invoke_all ms MTQueue_default) ++ [RVoid], s).
Proof.
  intros s ms.
  assert (H0 : s !! 0 = None) by (vm_compute; reflexivity).
  split; [exact H0|]. exact (scoped_queue_leaves_no_trace 0 ms s H0).
Defined.

Lemma move_there_and_back_witness :
  let q := {| m_queue := [3; 4]; m_is_running := true |} in
  let s : gmap nat (MTQueue nat) :=
    <[0 := q]> (<[1 := {| m_queue := [9]; m_is_running := false |}]> ∅) in
  s !! 0 = Some q /\ 0 <> 1 /\ is_Some (s !! 1)
  /\ (exists s', run [MoveAssign 1 0; MoveAssign 0 1] s
                 = Some ([RVoid; RVoid], s')
        /\ s' !! 0 = Some q
        /\ s' !! 1 = Some {| m_queue := []; m_is_running := false |}).
Proof.
  intros q s.
  assert (H0 : s !! 0 = Some q) by (vm_compute; reflexivity).
  assert (Hne : 0 <> 1) by lia.
  assert (H1 : is_Some (s !! 1)) by (eexists; vm_compute; reflexivity).
  destruct (move_there_and_back 0 1 s q H0 Hne H1)
    as (s' & Hrun & HA & HB & _).
  repeat (split; [assumption|]). exists s'. auto.
Defined.

Lemma moved_from_witness :
  let q := {| m_queue := [3; 4]; m_is_running := true |} in
  let s : gmap nat (MTQueue nat) :=
    <[0 := q]> (<[1 := MTQueue_default]> ∅) in
  let ms := [CallPush 5; CallPop; CallFront; CallSize] in
  s !! 0 = Some q /\ 0 <> 1 /\ is_Some (s !! 1)
  /\ (exists rs s',
        run (MoveAssign 1 0 :: map (Invoke 0) ms) s = Some (RVoid :: rs, s')
        /\ s' !! 0 = Some {| m_queue := []; m_is_running := false |}
        /\ s' !! 1 = Some q).
Proof.
  intros q s ms.
  assert (H0 : s !! 0 = Some q) by (vm_compute; reflexivity).
  assert (Hne : 0 <> 1) by lia.
  assert (H1 : is_Some (s !! 1)) by (eexists; vm_compute; reflexivity).
  destruct (moved_from_queue_is_inert 0 1 ms s q H0 Hne H1)
    as (rs & s' & Hrun & HA & HB & _).
  repeat (split; [assumption|]). exists rs, s'. auto.
Defined.

Lemma items_follow_witness :
  let q := {| m_queue := [3; 4]; m_is_running := true |} in
  let s : gmap nat (MTQueue nat) :=
    <[0 := q]> (<[1 := MTQueue_default]> ∅) in
  s !! 0 = Some q /\ 0 <> 1 /\ is_Some (s !! 1)
  /\ (exists s',
        run (MoveAssign 1 0 :: map (Invoke 1) (repeat CallTryPop (size q))) s
        = Some (RVoid :: map (fun x => ROpt (Some x)) (m_queue q), s')).
Proof.
  intros q s.
  assert (H0 : s !! 0 = Some q) by (vm_compute; reflexivity).
  assert (Hne : 0 <> 1) by lia.
  assert (H1 : is_Some (s !! 1)) by (eexists; vm_compute; reflexivity).
  destruct (items_follow_the_move 0 1 s q H0 Hne H1) as (s' & Hrun & _).
  repeat (split; [assumption|]). exists s'. exact Hrun.
Defined.

End DaneJoe.
